(** * node-rdkafka: the promisified wrapper of [index.js]

    [index.js] wraps the native [bindings] module (librdkafka) in two
    classes, [KafkaConsumer] and [Producer].  The native module and the
    promise library (bluebird, bound to [P]) are collaborators of the
    wrapper: the first is modelled as an oracle that says, for each call it
    receives, which callbacks it invokes before returning and whether it
    returns or throws; the second by the promise heap below, with the
    single-settlement semantics of a promise built with [new P(executor)].

    Every wrapper method is a program in the monad [M]: it threads the
    promise heap and the log of the calls the native module has received, and
    completes normally or by a JavaScript exception. *)

From stdpp Require Import base tactics option list strings.
From Stdlib Require Import ZArith Lia.

#[local] Set Warnings "-register-all".

(** ** JavaScript values crossing the wrapper *)

(** The data that the application and the native module exchange through the
    wrapper: primitives, arrays ([topics], [commitValues]) and opaque native
    objects ([Message], [TopicPartition], [Error]).  Promises and callbacks
    are not data of this type: the native module is handed callbacks as
    [ACallback] arguments and never gives one back. *)
Inductive value : Type :=
| VUndefined
| VNull
| VBool (b : bool)
| VNum (n : Z)
| VNaN
| VStr (s : string)
| VNative (o : nat)
| VArr (items : list value).

(** [if (error)]: JavaScript's ToBoolean. *)
Definition truthy (v : value) : bool :=
  match v with
  | VUndefined | VNull | VNaN => false
  | VBool b => b
  | VNum n => negb (n =? 0)%Z
  | VStr s => negb (String.eqb s "")
  | VNative _ | VArr _ => true
  end.

(** [v === undefined]. *)
Definition is_undefined (v : value) : bool :=
  match v with VUndefined => true | _ => false end.

(** [args[i]], [undefined] when the caller passed fewer arguments. *)
Definition param (i : nat) (args : list value) : value :=
  default VUndefined (args !! i).

(** ** Promises *)

Abbreviation pid := nat (only parsing).

Inductive pstate : Type :=
| Pending
| Resolved (v : value)
| Rejected (e : value).

Definition is_pending (o : option pstate) : bool :=
  match o with Some Pending => true | _ => false end.

Definition is_settled (o : option pstate) : bool :=
  match o with Some (Resolved _) | Some (Rejected _) => true | _ => false end.

(** The [resolve] and [reject] functions of a promise act on a pending
    promise only; on a settled one they do nothing. *)
Definition settle (p : pid) (o : pstate) (ps : list pstate) : list pstate :=
  match ps !! p with
  | Some Pending => <[p := o]> ps
  | _ => ps
  end.

(** ** The native module *)

(** An argument of a native call: data, or the arrow function
    [(error, x) => { if (error) { return reject(error); } return resolve(x); }]
    that [consume] and [produce] build, identified by the promise whose
    [resolve] and [reject] it closes over. *)
Inductive arg : Type :=
| AVal (v : value)
| ACallback (p : pid).

Abbreviation handle := nat (only parsing).

Inductive receiver : Type :=
| RClass (name : string)
| RHandle (h : handle).

Record ecall : Type := ECall {
  ec_recv : receiver;
  ec_method : string;
  ec_args : list arg
}.

Inductive outcome : Type :=
| Returns (v : value)
| Throws (e : value).

(** What the native module does with one call: the callbacks it invokes
    before it returns, each with its [(error, x)], and how the call ends. *)
Record reaction : Type := Reaction {
  sync_callbacks : list (pid * value * value);
  finish : outcome
}.

(** The native module takes the call and reports nothing yet. *)
Definition accepts (v : value) : reaction := Reaction [] (Returns v).

(** ** State and monad *)

Record state : Type := State {
  promises : list pstate;
  next_handle : handle;
  engine_log : list ecall
}.

Definition init : state := State [] 0 [].

Definition set_promises (f : list pstate → list pstate) (s : state) : state :=
  State (f (promises s)) (next_handle s) (engine_log s).

Inductive completion (A : Type) : Type :=
| Normal (a : A)
| Throw (e : value).
Arguments Normal {A} a.
Arguments Throw {A} e.

Definition M (A : Type) : Type := state → completion A * state.

Definition ret {A : Type} (a : A) : M A := fun s => (Normal a, s).

Definition bind {A B : Type} (m : M A) (k : A → M B) : M B :=
  fun s =>
    match m s with
    | (Normal a, s') => k a s'
    | (Throw e, s') => (Throw e, s')
    end.

#[global] Instance M_ret : MRet M := @ret.
#[global] Instance M_bind : MBind M := fun A B k m => bind m k.

Definition resolve (p : pid) (v : value) : M value :=
  fun s => (Normal VUndefined, set_promises (settle p (Resolved v)) s).

Definition reject (p : pid) (e : value) : M value :=
  fun s => (Normal VUndefined, set_promises (settle p (Rejected e)) s).

(** The callback of [consume] and of [produce]. *)
Definition callback (p : pid) (error x : value) : M value :=
  if truthy error then reject p error else resolve p x.

(** The state after the callbacks a native call invokes before returning. *)
Definition run_callbacks (cbs : list (pid * value * value)) (s : state) : state :=
  foldl (fun s cb => (callback cb.1.1 cb.1.2 cb.2 s).2) s cbs.

(** [this.impl.method(args)]: the call is recorded, the native module runs
    the callbacks of its reaction, then returns or throws. *)
Definition native (h : handle) (method : string) (args : list arg)
    (r : reaction) : M value :=
  fun s =>
    let s1 := State (promises s) (next_handle s)
                    (engine_log s ++ [ECall (RHandle h) method args]) in
    let s2 := run_callbacks (sync_callbacks r) s1 in
    match finish r with
    | Returns v => (Normal v, s2)
    | Throws e => (Throw e, s2)
    end.

(** [new bindings.Class(conf)]: a fresh handle unless the constructor
    throws. *)
Definition native_new (class : string) (args : list arg) (r : reaction)
    : M handle :=
  fun s =>
    let s1 := State (promises s) (next_handle s)
                    (engine_log s ++ [ECall (RClass class) "new" args]) in
    let s2 := run_callbacks (sync_callbacks r) s1 in
    match finish r with
    | Returns _ =>
        (Normal (next_handle s2),
         State (promises s2) (S (next_handle s2)) (engine_log s2))
    | Throws e => (Throw e, s2)
    end.

(** [new P((resolve, reject) => body)]: the promise is allocated pending
    and the executor runs at once.  The library catches what the executor
    throws and rejects the promise with it [if (r !== undefined)]: a thrown
    [undefined] is taken for a normal return and leaves the promise as the
    executor left it. *)
Definition new_P (executor : pid → M value) : M pid :=
  fun s =>
    let p := length (promises s) in
    let s1 := set_promises (fun ps => ps ++ [Pending]) s in
    match executor p s1 with
    | (Normal _, s2) => (Normal p, s2)
    | (Throw e, s2) =>
        (Normal p,
         if is_undefined e then s2
         else set_promises (settle p (Rejected e)) s2)
    end.

(** ** The wrapper classes *)

Record object : Type := Object { impl : handle }.

Inductive result : Type :=
| RVal (v : value)
| RPromise (p : pid).

Module KafkaConsumer.

Definition constructor (args : list value) (r : reaction) : M object :=
  h ← native_new "KafkaConsumer" [AVal (param 0 args)] r;
  ret (Object h).

Definition subscribe (this : object) (args : list value) (r : reaction)
    : M result :=
  v ← native (impl this) "subscribe" [AVal (param 0 args)] r;
  ret (RVal v).

Definition consume (this : object) (args : list value) (r : reaction)
    : M result :=
  p ← new_P (fun p => native (impl this) "consume" [ACallback p] r);
  ret (RPromise p).

Definition commit (this : object) (args : list value) (r : reaction)
    : M result :=
  native (impl this) "commit" [AVal (param 0 args)] r;;
  ret (RVal VUndefined).

Definition close (this : object) (args : list value) (r : reaction)
    : M result :=
  native (impl this) "close" [] r;;
  ret (RVal VUndefined).

End KafkaConsumer.

Module Producer.

Definition constructor (args : list value) (r : reaction) : M object :=
  h ← native_new "Producer" [AVal (param 0 args)] r;
  ret (Object h).

Definition produce (this : object) (args : list value) (r : reaction)
    : M result :=
  p ← new_P (fun p =>
         native (impl this) "produce"
                [AVal (param 0 args); AVal (param 1 args); ACallback p] r);
  ret (RPromise p).

Definition close (this : object) (args : list value) (r : reaction)
    : M result :=
  v ← native (impl this) "close" [] r;
  ret (RVal v).

End Producer.

(** ** Runs: what an application and the event loop can do *)

Inductive api : Type :=
| ConsumerSubscribe
| ConsumerConsume
| ConsumerCommit
| ConsumerClose
| ProducerProduce
| ProducerClose.

Definition dispatch (m : api) : object → list value → reaction → M result :=
  match m with
  | ConsumerSubscribe => KafkaConsumer.subscribe
  | ConsumerConsume => KafkaConsumer.consume
  | ConsumerCommit => KafkaConsumer.commit
  | ConsumerClose => KafkaConsumer.close
  | ProducerProduce => Producer.produce
  | ProducerClose => Producer.close
  end.

(** An event is a method call of the application, with the reaction of the
    native module to the call it makes, or a completion: the native module
    invokes, from the event loop, the callback of promise [p]. *)
Inductive event : Type :=
| EvCall (m : api) (this : object) (args : list value) (r : reaction)
| EvCompletion (p : pid) (error x : value).

Definition step (s : state) (ev : event) : state :=
  match ev with
  | EvCall m this args r => (dispatch m this args r s).2
  | EvCompletion p error x => (callback p error x s).2
  end.

Definition run (evs : list event) (s : state) : state := foldl step s evs.

(** The callbacks an event invokes. *)
Definition invoked (ev : event) : list pid :=
  match ev with
  | EvCall _ _ _ r => (fun cb => cb.1.1) <$> sync_callbacks r
  | EvCompletion p _ _ => [p]
  end.

(** No event of the run invokes the callback of [p]. *)
Definition quiet (p : pid) (evs : list event) : bool :=
  forallb (fun ev => forallb (fun q => negb (Nat.eqb q p)) (invoked ev)) evs.


(** ** The error code table *)

(** Modelled from the spec: [lib/ErrorCode.js], which [index.js] requires and
    re-exports as [ErrorCode], is not among the sources.  The specification
    describes it as an immutable table of entries [{code, name, message}]
    with unique codes, in which code zero is the success entry, and a
    [lookup(code) -> {name, message}] that is side-effect-free and gives a
    defined fallback for a code the table does not have. *)
Module ErrorTaxonomy.

Record entry : Type := Entry {
  code : Z;
  name : string;
  message : string
}.

Definition find_entry (table : list entry) (c : Z) : option entry :=
  List.find (fun e => (code e =? c)%Z) table.

Definition lookup (table : list entry) (fallback : string * string) (c : Z)
    : string * string :=
  match find_entry table c with
  | Some e => (name e, message e)
  | None => fallback
  end.

(** [lookup] as the wrapper's callers run it: it reads the table and leaves
    the state alone. *)
Definition lookup_call (table : list entry) (fallback : string * string)
    (c : Z) : M (string * string) :=
  mret (lookup table fallback c).

End ErrorTaxonomy.

(** ** Vocabulary of the statements *)

(** What the callback makes of [(error, x)]. *)
Definition verdict (error x : value) : pstate :=
  if truthy error then Rejected error else Resolved x.

(** The heap after a list of callbacks. *)
Definition settle_all (cbs : list (pid * value * value)) (ps : list pstate)
    : list pstate :=
  foldl (fun ps cb => settle cb.1.1 (verdict cb.1.2 cb.2) ps) ps cbs.

(** Settlement is local: what a promise becomes depends on that promise
    alone. *)
Definition settle_slot (p q : pid) (o : pstate) (x : option pstate)
    : option pstate :=
  if decide (p = q)
  then match x with Some Pending => Some o | _ => x end
  else x.

Definition settle_all_slot (cbs : list (pid * value * value)) (q : pid)
    (x : option pstate) : option pstate :=
  foldl (fun x cb => settle_slot cb.1.1 q (verdict cb.1.2 cb.2) x) x cbs.

(** The methods that build a promise. *)
Definition returns_promise (m : api) : bool :=
  match m with
  | ConsumerConsume | ProducerProduce => true
  | _ => false
  end.

(** The heap after a promise-building method: the new promise is appended,
    the callbacks of the reaction run, and a throw of the native call, unless
    it throws [undefined], rejects the new promise. *)
Definition heap_after_new_P (r : reaction) (ps : list pstate) : list pstate :=
  let ps' := settle_all (sync_callbacks r) (ps ++ [Pending]) in
  match finish r with
  | Returns _ => ps'
  | Throws e =>
      if is_undefined e then ps' else settle (length ps) (Rejected e) ps'
  end.

(** The callbacks an event runs, with their arguments. *)
Definition step_callbacks (ev : event) : list (pid * value * value) :=
  match ev with
  | EvCall _ _ _ r => sync_callbacks r
  | EvCompletion p error x => [(p, error, x)]
  end.

Definition completion_of (o : outcome) : completion value :=
  match o with Returns v => Normal v | Throws e => Throw e end.

(** The callbacks a run invokes, in order. *)
Definition reported (evs : list event) : list (pid * value * value) :=
  concat (step_callbacks <$> evs).

(** What the first of the callbacks [cbs] that is the callback of [p] makes
    of [p], and [otherwise] when there is none. *)
Definition decided_by (p : pid) (cbs : list (pid * value * value))
    (otherwise : pstate) : pstate :=
  match find (fun cb => Nat.eqb cb.1.1 p) cbs with
  | Some cb => verdict cb.1.2 cb.2
  | None => otherwise
  end.

(** A call fails at once: it throws, or the promise it returns is already
    rejected. *)
Definition fails_immediately (out : completion result * state) : Prop :=
  (∃ e, out.1 = Throw e) ∨
  (∃ p e, out.1 = Normal (RPromise p) ∧ promises out.2 !! p = Some (Rejected e)).

(** A call is refused at this layer: it throws and the native module has
    received nothing. *)
Definition refused_before_engine (s : state) (out : completion result * state)
    : Prop :=
  (∃ e, out.1 = Throw e) ∧ engine_log out.2 = engine_log s.

(** A value is among the arguments of the last call the native module
    received. *)
Definition handed_to_engine (v : value) (s : state) : Prop :=
  ∃ c, last (engine_log s) = Some c ∧ AVal v ∈ ec_args c.

(** The call a method makes to the native module, [p] being the promise the
    method builds if it builds one. *)
Definition native_call (m : api) (this : object) (args : list value) (p : pid)
    : ecall :=
  match m with
  | ConsumerSubscribe =>
      ECall (RHandle (impl this)) "subscribe" [AVal (param 0 args)]
  | ConsumerConsume =>
      ECall (RHandle (impl this)) "consume" [ACallback p]
  | ConsumerCommit =>
      ECall (RHandle (impl this)) "commit" [AVal (param 0 args)]
  | ConsumerClose =>
      ECall (RHandle (impl this)) "close" []
  | ProducerProduce =>
      ECall (RHandle (impl this)) "produce"
            [AVal (param 0 args); AVal (param 1 args); ACallback p]
  | ProducerClose =>
      ECall (RHandle (impl this)) "close" []
  end.

(** The native calls of the method calls of a run, in the order of the run,
    [n] being the number of promises built before it. *)
Fixpoint requests (n : nat) (evs : list event) : list ecall :=
  match evs with
  | [] => []
  | EvCall m this args r :: evs' =>
      native_call m this args n
        :: requests (if returns_promise m then S n else n) evs'
  | EvCompletion _ _ _ :: evs' => requests n evs'
  end.

(** The number of method calls of a run, and of those that are [consume()]
    or [produce()]. *)
Definition is_call (ev : event) : bool :=
  match ev with EvCall _ _ _ _ => true | EvCompletion _ _ _ => false end.

Definition is_promise_call (ev : event) : bool :=
  match ev with
  | EvCall m _ _ _ => returns_promise m
  | EvCompletion _ _ _ => false
  end.

Definition method_calls (evs : list event) : nat :=
  length (List.filter is_call evs).

Definition promise_calls (evs : list event) : nat :=
  length (List.filter is_promise_call evs).

(** The native handle a method call is made on. *)
Definition called_on (ev : event) : option handle :=
  match ev with
  | EvCall _ this _ _ => Some (impl this)
  | EvCompletion _ _ _ => None
  end.

(** The reports [cbs] arriving from the event loop one after the other. *)
Definition completions (cbs : list (pid * value * value)) : list event :=
  (fun cb => EvCompletion cb.1.1 cb.1.2 cb.2) <$> cbs.




(** ** The promise heap under settlement *)

Section heap.
Implicit Types (ps : list pstate) (p q : pid) (o st : pstate).

Lemma settle_length p o ps : length (settle p o ps) = length ps.
Proof.
  unfold settle. destruct (ps !! p) as [[]|]; by rewrite ?length_insert.
Qed.

Lemma settle_lookup_ne p q o ps : p ≠ q → settle p o ps !! q = ps !! q.
Proof.
  intros Hne. unfold settle.
  destruct (ps !! p) as [[]|]; by rewrite ?list_lookup_insert_ne.
Qed.

Lemma settle_lookup_pending p o ps :
  ps !! p = Some Pending → settle p o ps !! p = Some o.
Proof.
  intros Hp. unfold settle. rewrite Hp.
  apply list_lookup_insert_eq. by eapply lookup_lt_Some.
Qed.

Lemma settle_not_pending p o ps :
  is_pending (ps !! p) = false → settle p o ps = ps.
Proof. unfold settle. by destruct (ps !! p) as [[]|]. Qed.

Lemma settle_stable p q o st ps :
  ps !! q = Some st → st ≠ Pending → settle p o ps !! q = Some st.
Proof.
  intros Hq Hst. destruct (decide (p = q)) as [->|Hne].
  - rewrite settle_not_pending; [done|]. rewrite Hq. by destruct st.
  - by rewrite settle_lookup_ne.
Qed.
End heap.

Lemma callback_state p error x s :
  (callback p error x s).2 = set_promises (settle p (verdict error x)) s.
Proof. unfold callback, verdict. by destruct (truthy error). Qed.


Lemma run_callbacks_state cbs s :
  run_callbacks cbs s = set_promises (settle_all cbs) s.
Proof.
  revert s. induction cbs as [|cb cbs IH]; intros s; [by destruct s|].
  unfold run_callbacks in *. cbn [foldl]. rewrite IH, callback_state.
  by destruct s.
Qed.

Section settle_all.
Implicit Types (ps : list pstate) (cbs : list (pid * value * value)).

Lemma settle_all_length cbs ps : length (settle_all cbs ps) = length ps.
Proof.
  revert ps. induction cbs as [|cb cbs IH]; intros ps; [done|].
  cbn. unfold settle_all in IH. by rewrite IH, settle_length.
Qed.

Lemma settle_all_stable cbs ps q st :
  ps !! q = Some st → st ≠ Pending → settle_all cbs ps !! q = Some st.
Proof.
  revert ps. induction cbs as [|cb cbs IH]; intros ps Hq Hst; [done|].
  cbn. apply IH; [|done]. by apply settle_stable.
Qed.

Lemma settle_all_quiet cbs ps q :
  Forall (fun cb => cb.1.1 ≠ q) cbs → settle_all cbs ps !! q = ps !! q.
Proof.
  revert ps. induction cbs as [|cb cbs IH]; intros ps Hall; [done|].
  apply Forall_cons in Hall as [Hcb Hall].
  cbn. unfold settle_all in IH. rewrite IH by done.
  by apply settle_lookup_ne.
Qed.

(** Once the callback of a pending promise has been invoked, the promise is
    settled. *)
Lemma settle_all_invoked cbs ps q :
  q < length ps → Exists (fun cb => cb.1.1 = q) cbs →
  is_settled (settle_all cbs ps !! q) = true.
Proof.
  revert ps. induction cbs as [|cb cbs IH]; intros ps Hlt Hex.
  { by apply Exists_nil in Hex. }
  cbn. fold (settle_all cbs (settle cb.1.1 (verdict cb.1.2 cb.2) ps)).
  apply Exists_cons in Hex as [Hcb|Hex].
  - destruct (lookup_lt_is_Some_2 ps q Hlt) as [st Hst].
    assert (∃ st', settle cb.1.1 (verdict cb.1.2 cb.2) ps !! q = Some st'
                   ∧ st' ≠ Pending) as (st' & Hst' & Hne).
    { destruct st.
      - exists (verdict cb.1.2 cb.2). split.
        + rewrite Hcb. by apply settle_lookup_pending.
        + unfold verdict. by destruct (truthy _).
      - eexists. split; [by apply settle_stable|done].
      - eexists. split; [by apply settle_stable|done]. }
    erewrite settle_all_stable; [|exact Hst'|done]. by destruct st'.
  - apply IH; [by rewrite settle_length|done].
Qed.
End settle_all.

(** ** One step of a run *)

Lemma native_result h method args r s :
  (native h method args r s).1 =
  match finish r with Returns v => Normal v | Throws e => Throw e end.
Proof. unfold native. by destruct (finish r). Qed.

Lemma native_promises h method args r s :
  promises (native h method args r s).2 =
  settle_all (sync_callbacks r) (promises s).
Proof.
  unfold native. rewrite run_callbacks_state. by destruct (finish r).
Qed.

Lemma new_P_native h method args r s :
  new_P (fun p => native h method (args p) r) s =
  (Normal (length (promises s)),
   State (heap_after_new_P r (promises s)) (next_handle s)
         (engine_log s ++ [ECall (RHandle h) method (args (length (promises s)))])).
Proof.
  unfold new_P, native, heap_after_new_P.
  rewrite run_callbacks_state.
  destruct (finish r) as [v|e]; [done|]. by destruct (is_undefined e).
Qed.

Lemma dispatch_promises m this args r s :
  promises (dispatch m this args r s).2 =
  if returns_promise m then heap_after_new_P r (promises s)
  else settle_all (sync_callbacks r) (promises s).
Proof.
  destruct m; cbn [dispatch returns_promise].
  - unfold KafkaConsumer.subscribe, mbind, M_bind, bind.
    rewrite (surjective_pairing (native _ _ _ _ _)), native_result.
    destruct (finish r); cbn; apply native_promises.
  - unfold KafkaConsumer.consume, mbind, M_bind, bind.
    by rewrite (new_P_native _ _ (fun p => [ACallback p])).
  - unfold KafkaConsumer.commit, mbind, M_bind, bind.
    rewrite (surjective_pairing (native _ _ _ _ _)), native_result.
    destruct (finish r); cbn; apply native_promises.
  - unfold KafkaConsumer.close, mbind, M_bind, bind.
    rewrite (surjective_pairing (native _ _ _ _ _)), native_result.
    destruct (finish r); cbn; apply native_promises.
  - unfold Producer.produce, mbind, M_bind, bind.
    by rewrite (new_P_native _ _
      (fun p => [AVal (param 0 args); AVal (param 1 args); ACallback p])).
  - unfold Producer.close, mbind, M_bind, bind.
    rewrite (surjective_pairing (native _ _ _ _ _)), native_result.
    destruct (finish r); cbn; apply native_promises.
Qed.

Lemma settle_lookup p q o (ps : list pstate) :
  settle p o ps !! q = settle_slot p q o (ps !! q).
Proof.
  unfold settle_slot. case_decide as Hpq; [subst q|by apply settle_lookup_ne].
  destruct (ps !! p) as [[]|] eqn:Hp.
  - by apply settle_lookup_pending.
  - rewrite settle_not_pending; [done|by rewrite Hp].
  - rewrite settle_not_pending; [done|by rewrite Hp].
  - rewrite settle_not_pending; [done|by rewrite Hp].
Qed.

Lemma settle_all_lookup cbs (ps : list pstate) q :
  settle_all cbs ps !! q = settle_all_slot cbs q (ps !! q).
Proof.
  revert ps. induction cbs as [|cb cbs IH]; intros ps; [done|].
  cbn. fold (settle_all cbs (settle cb.1.1 (verdict cb.1.2 cb.2) ps)).
  fold (settle_all_slot cbs q
          (settle_slot cb.1.1 q (verdict cb.1.2 cb.2) (ps !! q))).
  by rewrite IH, settle_lookup.
Qed.

Section heap_after_new_P.
Implicit Types (ps : list pstate) (r : reaction).

Lemma heap_after_new_P_length r ps :
  length (heap_after_new_P r ps) = S (length ps).
Proof.
  unfold heap_after_new_P.
  destruct (finish r) as [v|e]; [|destruct (is_undefined e)];
    rewrite ?settle_length, settle_all_length, length_app; cbn; lia.
Qed.

(** The promises that existed before the call fare as under the callbacks
    of the reaction alone. *)
Lemma heap_after_new_P_old r ps q :
  q < length ps →
  heap_after_new_P r ps !! q = settle_all (sync_callbacks r) ps !! q.
Proof.
  intros Hlt.
  assert (settle_all (sync_callbacks r) (ps ++ [Pending]) !! q =
          settle_all (sync_callbacks r) ps !! q) as Hsame.
  { by rewrite !settle_all_lookup, lookup_app_l. }
  unfold heap_after_new_P. destruct (finish r) as [v|e]; [done|].
  destruct (is_undefined e); [done|].
  rewrite settle_lookup_ne by lia. done.
Qed.

(** The promise the call builds. *)
Lemma heap_after_new_P_new r ps :
  heap_after_new_P r ps !! length ps =
  match settle_all_slot (sync_callbacks r) (length ps) (Some Pending),
        finish r with
  | Some Pending, Throws e =>
      Some (if is_undefined e then Pending else Rejected e)
  | x, _ => x
  end.
Proof.
  unfold heap_after_new_P.
  assert (settle_all (sync_callbacks r) (ps ++ [Pending]) !! length ps =
          settle_all_slot (sync_callbacks r) (length ps) (Some Pending))
    as Hnew.
  { rewrite settle_all_lookup. f_equal.
    rewrite lookup_app_r by lia. by rewrite Nat.sub_diag. }
  destruct (finish r) as [v|e].
  - rewrite Hnew. by destruct (settle_all_slot _ _ _) as [[]|].
  - destruct (is_undefined e).
    + rewrite Hnew. by destruct (settle_all_slot _ _ _) as [[]|].
    + rewrite settle_lookup, Hnew. unfold settle_slot.
      rewrite decide_True by done.
      by destruct (settle_all_slot _ _ _) as [[]|].
Qed.
End heap_after_new_P.

Section step.
Implicit Types (s : state) (ev : event) (q : pid) (st : pstate).

Lemma invoked_step_callbacks ev :
  invoked ev = (fun cb => cb.1.1) <$> step_callbacks ev.
Proof. by destruct ev. Qed.

Lemma step_length s ev :
  length (promises s) ≤ length (promises (step s ev)).
Proof.
  destruct ev as [m this args r|p error x]; cbn [step].
  - rewrite dispatch_promises. destruct (returns_promise m).
    + rewrite heap_after_new_P_length. lia.
    + by rewrite settle_all_length.
  - rewrite callback_state. cbn. by rewrite settle_length.
Qed.

(** On the promises that exist, a step is the callbacks it runs. *)
Lemma step_old s ev q :
  q < length (promises s) →
  promises (step s ev) !! q =
  settle_all (step_callbacks ev) (promises s) !! q.
Proof.
  intros Hlt. destruct ev as [m this args r|p error x]; cbn [step].
  - rewrite dispatch_promises. destruct (returns_promise m); [|done].
    by apply heap_after_new_P_old.
  - by rewrite callback_state.
Qed.

Lemma step_stable s ev q st :
  promises s !! q = Some st → st ≠ Pending →
  promises (step s ev) !! q = Some st.
Proof.
  intros Hq Hst. rewrite step_old by (by eapply lookup_lt_Some).
  by apply settle_all_stable.
Qed.

Lemma step_quiet s ev q :
  q < length (promises s) → Forall (fun p => p ≠ q) (invoked ev) →
  promises (step s ev) !! q = promises s !! q.
Proof.
  intros Hlt Hall. rewrite step_old by done.
  apply settle_all_quiet.
  rewrite invoked_step_callbacks in Hall. 
  exact (proj1 (Forall_fmap (fun cb : nat * value * value => cb.1.1)
                 (fun p => p ≠ q) _) Hall).
Qed.

Lemma step_invoked s ev q :
  q < length (promises s) → Exists (fun p => p = q) (invoked ev) →
  is_settled (promises (step s ev) !! q) = true.
Proof.
  intros Hlt Hex. rewrite step_old by done.
  apply settle_all_invoked; [done|].
  rewrite invoked_step_callbacks in Hex. 
  exact (proj1 (Exists_fmap (fun cb : nat * value * value => cb.1.1)
                 (fun p => p = q) _) Hex).
Qed.
End step.

(** ** Runs *)

Section run.
Implicit Types (s : state) (evs : list event) (q : pid) (st : pstate).

Lemma quiet_cons q ev evs :
  quiet q (ev :: evs) =
  forallb (fun p => negb (Nat.eqb p q)) (invoked ev) && quiet q evs.
Proof. done. Qed.

Lemma quiet_head_true q ev :
  forallb (fun p => negb (Nat.eqb p q)) (invoked ev) = true →
  Forall (fun p => p ≠ q) (invoked ev).
Proof.
  intros H. apply Forall_forall. intros p Hp.
  rewrite forallb_forall in H. apply list_elem_of_In in Hp.
  specialize (H p Hp). apply negb_true_iff, Nat.eqb_neq in H. done.
Qed.

Lemma quiet_head_false q ev :
  forallb (fun p => negb (Nat.eqb p q)) (invoked ev) = false →
  Exists (fun p => p = q) (invoked ev).
Proof.
  induction (invoked ev) as [|p l IH]; cbn; [done|].
  destruct (Nat.eqb_spec p q) as [->|Hne]; cbn.
  - intros _. by apply Exists_cons_hd.
  - intros H. apply Exists_cons_tl. by apply IH.
Qed.

Lemma run_cons ev evs s : run (ev :: evs) s = run evs (step s ev).
Proof. done. Qed.


Lemma run_length evs s :
  length (promises s) ≤ length (promises (run evs s)).
Proof.
  revert s. induction evs as [|ev evs IH]; intros s; [done|].
  rewrite run_cons. etrans; [apply (step_length s ev)|apply IH].
Qed.

(** A settled promise keeps its outcome whatever happens next. *)
Lemma run_stable evs s q st :
  promises s !! q = Some st → st ≠ Pending →
  promises (run evs s) !! q = Some st.
Proof.
  revert s. induction evs as [|ev evs IH]; intros s Hq Hst; [done|].
  rewrite run_cons. apply IH; [|done]. by apply step_stable.
Qed.

(** A promise whose callback nobody invokes stays as it is. *)
Lemma run_quiet evs s q :
  q < length (promises s) → quiet q evs = true →
  promises (run evs s) !! q = promises s !! q.
Proof.
  revert s. induction evs as [|ev evs IH]; intros s Hlt Hquiet; [done|].
  rewrite quiet_cons in Hquiet. apply andb_true_iff in Hquiet as [Hev Hevs].
  rewrite run_cons, IH; [|pose proof (step_length s ev); lia|done].
  apply step_quiet; [done|]. by apply quiet_head_true.
Qed.



End run.

(** ** The methods in closed form *)

Lemma native_eq h method args r s :
  native h method args r s =
  (completion_of (finish r),
   State (settle_all (sync_callbacks r) (promises s)) (next_handle s)
         (engine_log s ++ [ECall (RHandle h) method args])).
Proof.
  unfold native. rewrite run_callbacks_state. by destruct (finish r).
Qed.

Lemma consume_eq this args r s :
  KafkaConsumer.consume this args r s =
  (Normal (RPromise (length (promises s))),
   State (heap_after_new_P r (promises s)) (next_handle s)
         (engine_log s ++
            [ECall (RHandle (impl this)) "consume"
                   [ACallback (length (promises s))]])).
Proof.
  unfold KafkaConsumer.consume, mbind, M_bind, bind.
  by rewrite (new_P_native _ _ (fun p => [ACallback p])).
Qed.

Lemma produce_eq this args r s :
  Producer.produce this args r s =
  (Normal (RPromise (length (promises s))),
   State (heap_after_new_P r (promises s)) (next_handle s)
         (engine_log s ++
            [ECall (RHandle (impl this)) "produce"
                   [AVal (param 0 args); AVal (param 1 args);
                    ACallback (length (promises s))]])).
Proof.
  unfold Producer.produce, mbind, M_bind, bind.
  by rewrite (new_P_native _ _
    (fun p => [AVal (param 0 args); AVal (param 1 args); ACallback p])).
Qed.

Lemma settle_all_slot_quiet cbs q x :
  Forall (fun cb => cb.1.1 ≠ q) cbs → settle_all_slot cbs q x = x.
Proof.
  revert x. induction cbs as [|cb cbs IH]; intros x Hall; [done|].
  apply Forall_cons in Hall as [Hcb Hall]. cbn.
  unfold settle_all_slot in IH. rewrite IH by done.
  unfold settle_slot. by rewrite decide_False.
Qed.

Lemma verdict_not_pending error x : verdict error x ≠ Pending.
Proof. unfold verdict. by destruct (truthy error). Qed.

Lemma settle_all_slot_settled cbs q st :
  st ≠ Pending → settle_all_slot cbs q (Some st) = Some st.
Proof.
  intros Hst. induction cbs as [|cb cbs IH]; [done|].
  cbn. unfold settle_all_slot in IH. rewrite <- IH at 2. f_equal.
  unfold settle_slot. case_decide; [|done]. by destruct st.
Qed.

(** The first report to a pending promise decides it. *)
Lemma settle_all_slot_pending cbs q :
  settle_all_slot cbs q (Some Pending) = Some (decided_by q cbs Pending).
Proof.
  induction cbs as [|cb cbs IH]; [done|].
  unfold decided_by. cbn [find settle_all_slot foldl].
  fold (settle_all_slot cbs q
          (settle_slot cb.1.1 q (verdict cb.1.2 cb.2) (Some Pending))).
  unfold settle_slot.
  destruct (Nat.eqb_spec cb.1.1 q) as [Heq|Hne].
  - rewrite decide_True by done.
    apply settle_all_slot_settled, verdict_not_pending.
  - rewrite decide_False by done. exact IH.
Qed.

Lemma settle_all_slot_app cbs1 cbs2 q x :
  settle_all_slot (cbs1 ++ cbs2) q x =
  settle_all_slot cbs2 q (settle_all_slot cbs1 q x).
Proof. unfold settle_all_slot. apply foldl_app. Qed.

(** A promise that exists goes through a run as through its callbacks. *)
Lemma run_lookup evs s q :
  q < length (promises s) →
  promises (run evs s) !! q =
  settle_all_slot (reported evs) q (promises s !! q).
Proof.
  revert s. induction evs as [|ev evs IH]; intros s Hlt; [done|].
  rewrite run_cons, IH by (pose proof (step_length s ev); lia).
  unfold reported. rewrite fmap_cons, concat_cons, settle_all_slot_app.
  by rewrite step_old, settle_all_lookup.
Qed.

(** The promise of a promise-building call, after the call and a run. *)
Lemma new_promise_decided r (ps : list pstate) evs s :
  promises s = heap_after_new_P r ps →
  promises (run evs s) !! length ps =
  Some (decided_by (length ps) (sync_callbacks r)
          match finish r with
          | Returns _ => decided_by (length ps) (reported evs) Pending
          | Throws e =>
              if is_undefined e
              then decided_by (length ps) (reported evs) Pending
              else Rejected e
          end).
Proof.
  intros Hs.
  rewrite run_lookup by (rewrite Hs, heap_after_new_P_length; lia).
  rewrite Hs, heap_after_new_P_new, settle_all_slot_pending.
  unfold decided_by.
  destruct (find _ (sync_callbacks r)) as [cb|].
  - pose proof (verdict_not_pending cb.1.2 cb.2) as Hv.
    destruct (verdict cb.1.2 cb.2); [done|..];
      by rewrite settle_all_slot_settled.
  - destruct (finish r) as [v|e]; [apply settle_all_slot_pending|].
    destruct (is_undefined e); [apply settle_all_slot_pending|].
    by rewrite settle_all_slot_settled.
Qed.



(** An invoked callback leaves its promise settled. *)
Lemma run_invoked evs s q :
  q < length (promises s) → quiet q evs = false →
  is_settled (promises (run evs s) !! q) = true.
Proof.
  revert s. induction evs as [|ev evs IH]; intros s Hlt Hquiet; [done|].
  rewrite quiet_cons in Hquiet. rewrite run_cons.
  destruct (forallb _ (invoked ev)) eqn:Hev.
  - apply IH; [pose proof (step_length s ev); lia|done].
  - pose proof (step_invoked s ev q Hlt (quiet_head_false _ _ Hev)) as Hset.
    destruct (promises (step s ev) !! q) as [st|] eqn:Hq; [|done].
    rewrite (run_stable evs _ q st); [done|done|by destruct st].
Qed.

(** * The claims *)

(** ** Producer.produce *)


(** The scenarios of the specification: the call is pending until the
    report; success at offset 42 resolves it with 42; a queue-full error
    rejects it with that error. *)
Example produce_scenarios :
  let s := (Producer.produce (Object 0) [VStr "orders"; VStr "payload"]
              (accepts VUndefined) init).2 in
  promises s !! 0 = Some Pending ∧
  promises (run [EvCompletion 0 VNull (VNum 42)] s) !! 0 =
    Some (Resolved (VNum 42)) ∧
  promises (run [EvCompletion 0 (VNative 184) VUndefined] s) !! 0 =
    Some (Rejected (VNative 184)).
Proof. cbn. split_and!; reflexivity. Qed.

(** The native [produce] throws [undefined]: the call is pending, and a
    later report of offset 42 resolves it. *)
Example produce_after_thrown_undefined :
  let s := (Producer.produce (Object 0) [VStr "orders"; VStr "payload"]
              (Reaction [] (Throws VUndefined)) init).2 in
  promises s !! 0 = Some Pending ∧
  promises (run [EvCompletion 0 VNull (VNum 42)] s) !! 0 =
    Some (Resolved (VNum 42)).
Proof. cbn. split; reflexivity. Qed.

(** ** Pending operations *)

(** The promise-building methods return the promise they allocate. *)
Lemma dispatch_new_promise m this args r s :
  returns_promise m = true →
  (dispatch m this args r s).1 = Normal (RPromise (length (promises s))).
Proof.
  destruct m; try done; intros _; cbn [dispatch].
  - by rewrite consume_eq.
  - by rewrite produce_eq.
Qed.



(** ** KafkaConsumer.consume *)



(** ** Single flight *)

(** C3, as stated, fails: with a first [consume()] still pending, a second
    [consume()] on the same instance is handed to the native module like the
    first and returns a pending promise of its own. *)
Lemma second_consume_is_not_refused :
  let consumer := Object 0 in
  let s1 := (KafkaConsumer.consume consumer [] (accepts VUndefined) init).2 in
  let out := KafkaConsumer.consume consumer [] (accepts VUndefined) s1 in
  promises s1 !! 0 = Some Pending ∧
  out.1 = Normal (RPromise 1) ∧
  promises out.2 = [Pending; Pending] ∧
  engine_log out.2 = [ECall (RHandle 0) "consume" [ACallback 0];
                      ECall (RHandle 0) "consume" [ACallback 1]] ∧
  ¬ fails_immediately out.
Proof.
  cbn. split_and!; try reflexivity.
  intros [[e He]|(p & e & Hp & Hrej)]; [discriminate|].
  injection Hp as <-. discriminate.
Qed.

(** C3, amended.  [consume()] has no single-flight guard: called while
    another promise of the instance is pending, it hands a new callback to
    the native module and returns a new promise, pending when the native
    module returns without reporting or throws [undefined], and rejected
    only by what else the native module itself throws; the earlier promise
    stays pending through the call unless the native module invokes its
    callback. *)
Theorem second_consume_is_forwarded
    (this : object) (args : list value) (r : reaction) (s : state) (p0 : pid) :
  let p := length (promises s) in
  let out := KafkaConsumer.consume this args r s in
  promises s !! p0 = Some Pending →
  out.1 = Normal (RPromise p) ∧
  p ≠ p0 ∧
  engine_log out.2 =
    engine_log s ++ [ECall (RHandle (impl this)) "consume" [ACallback p]] ∧
  (Forall (fun cb => cb.1.1 ≠ p0) (sync_callbacks r) →
   promises out.2 !! p0 = Some Pending) ∧
  (Forall (fun cb => cb.1.1 ≠ p) (sync_callbacks r) →
   promises out.2 !! p =
     Some (match finish r with
           | Returns _ => Pending
           | Throws e => if is_undefined e then Pending else Rejected e
           end)).
Proof.
  intros p out Hp0. subst out p. rewrite consume_eq.
  cbn [fst snd promises engine_log].
  assert (p0 < length (promises s)) as Hlt by (by eapply lookup_lt_Some).
  split_and!; [done|lia|done| |].
  - intros Hquiet. rewrite heap_after_new_P_old by done.
    by rewrite settle_all_quiet.
  - intros Hquiet. rewrite heap_after_new_P_new.
    rewrite settle_all_slot_quiet by done. by destruct (finish r).
Qed.

Lemma second_consume_is_forwarded_witness :
  let s1 := (KafkaConsumer.consume (Object 0) [] (accepts VUndefined) init).2 in
  let out := KafkaConsumer.consume (Object 0) [] (accepts VUndefined) s1 in
  promises out.2 !! 0 = Some Pending ∧ promises out.2 !! 1 = Some Pending.
Proof.
  split.
  - exact (proj1 (proj2 (proj2 (proj2
      (second_consume_is_forwarded (Object 0) [] (accepts VUndefined)
         (KafkaConsumer.consume (Object 0) [] (accepts VUndefined) init).2
         0 eq_refl)))) (Forall_nil_2 _)).
  - exact (proj2 (proj2 (proj2 (proj2
      (second_consume_is_forwarded (Object 0) [] (accepts VUndefined)
         (KafkaConsumer.consume (Object 0) [] (accepts VUndefined) init).2
         0 eq_refl)))) (Forall_nil_2 _)).
Defined.

(** ** KafkaConsumer.subscribe *)

(** C5, as stated, fails: [subscribe([])] and [subscribe(["a", "a"])] reach
    the native module and return what it returns. *)
Lemma subscribe_is_not_validated :
  let consumer := Object 0 in
  let empty := KafkaConsumer.subscribe consumer [VArr []] (accepts VUndefined) init in
  let twice := KafkaConsumer.subscribe consumer [VArr [VStr "a"; VStr "a"]]
                 (accepts VUndefined) init in
  empty = (Normal (RVal VUndefined),
           State [] 0 [ECall (RHandle 0) "subscribe" [AVal (VArr [])]]) ∧
  twice = (Normal (RVal VUndefined),
           State [] 0 [ECall (RHandle 0) "subscribe"
                             [AVal (VArr [VStr "a"; VStr "a"])]]) ∧
  ¬ refused_before_engine init empty ∧
  ¬ refused_before_engine init twice.
Proof.
  cbn. split_and!; try reflexivity.
  - intros [[e He] _]. discriminate.
  - intros [[e He] _]. discriminate.
Qed.

(** C5, amended.  [subscribe(topics)] validates nothing at this layer: for
    every [topics] it hands [topics] as it is to the native [subscribe] and
    returns what that returns, or throws what that throws. *)
Theorem subscribe_is_forwarded
    (this : object) (args : list value) (r : reaction) (s : state) :
  KafkaConsumer.subscribe this args r s =
  (match finish r with Returns v => Normal (RVal v) | Throws e => Throw e end,
   State (settle_all (sync_callbacks r) (promises s)) (next_handle s)
         (engine_log s ++
            [ECall (RHandle (impl this)) "subscribe" [AVal (param 0 args)]])).
Proof.
  unfold KafkaConsumer.subscribe, mbind, M_bind, bind. rewrite native_eq.
  by destruct (finish r).
Qed.

(** ** KafkaConsumer.commit *)

(** C6. [commit(commitValues)] hands [commitValues] to the native [commit]
    within the call and builds no promise: it returns [undefined] when the
    native call returns and throws what it throws. *)
Theorem commit_is_fire_and_forget
    (this : object) (args : list value) (r : reaction) (s : state) :
  let out := KafkaConsumer.commit this args r s in
  engine_log out.2 =
    engine_log s ++ [ECall (RHandle (impl this)) "commit" [AVal (param 0 args)]] ∧
  length (promises out.2) = length (promises s) ∧
  out.1 = match finish r with
          | Returns _ => Normal (RVal VUndefined)
          | Throws e => Throw e
          end ∧
  (∀ p, out.1 ≠ Normal (RPromise p)).
Proof.
  unfold KafkaConsumer.commit, mbind, M_bind, bind. rewrite native_eq.
  destruct (finish r); cbn; rewrite settle_all_length; done.
Qed.

(** ** KafkaConsumer.close *)

(** C7, as stated, fails: [close()] called with a [consume()] pending and a
    [commit()] made leaves the promise of [consume()] pending when the native
    [close] returns without reporting; [commit()] left no pending operation
    to reject. *)
Lemma close_rejects_nothing :
  let consumer := Object 0 in
  let s1 := (KafkaConsumer.consume consumer [] (accepts VUndefined) init).2 in
  let s2 := (KafkaConsumer.commit consumer [VArr [VNative 3]]
               (accepts VUndefined) s1).2 in
  let out := KafkaConsumer.close consumer [] (accepts VUndefined) s2 in
  promises s2 = [Pending] ∧
  out.1 = Normal (RVal VUndefined) ∧
  promises out.2 = [Pending] ∧
  ¬ (∃ e, promises out.2 !! 0 = Some (Rejected e)).
Proof.
  cbn. split_and!; try reflexivity. intros [e He]. discriminate.
Qed.

(** C7, amended.  [close()] hands the shutdown to the native [close] and
    returns when that returns; it settles no promise itself: a promise that
    is pending when [close()] is called is still pending when it returns,
    unless the native module invoked its callback during the call. *)
Theorem close_is_forwarded
    (this : object) (args : list value) (r : reaction) (s : state) :
  let out := KafkaConsumer.close this args r s in
  out =
    (match finish r with
     | Returns _ => Normal (RVal VUndefined)
     | Throws e => Throw e
     end,
     State (settle_all (sync_callbacks r) (promises s)) (next_handle s)
           (engine_log s ++ [ECall (RHandle (impl this)) "close" []])) ∧
  (∀ q, promises s !! q = Some Pending →
        Forall (fun cb => cb.1.1 ≠ q) (sync_callbacks r) →
        promises out.2 !! q = Some Pending).
Proof.
  unfold KafkaConsumer.close, mbind, M_bind, bind. rewrite native_eq.
  split.
  - by destruct (finish r).
  - intros q Hq Hquiet. destruct (finish r); cbn; by rewrite settle_all_quiet.
Qed.

Lemma close_is_forwarded_witness :
  let s1 := (KafkaConsumer.consume (Object 0) [] (accepts VUndefined) init).2 in
  promises (KafkaConsumer.close (Object 0) [] (accepts VUndefined) s1).2 !! 0 =
  Some Pending.
Proof.
  exact (proj2 (close_is_forwarded (Object 0) [] (accepts VUndefined)
                  (KafkaConsumer.consume (Object 0) [] (accepts VUndefined) init).2)
               0 eq_refl (Forall_nil_2 _)).
Defined.

(** ** The key of a produced message *)

(** C9, as stated, fails: a third argument of [produce] does not reach the
    native [produce]. *)
Lemma produce_drops_the_key :
  let out := Producer.produce (Object 0)
               [VStr "orders"; VStr "payload"; VStr "key-1"]
               (accepts VUndefined) init in
  engine_log out.2 =
    [ECall (RHandle 0) "produce"
           [AVal (VStr "orders"); AVal (VStr "payload"); ACallback 0]] ∧
  handed_to_engine (VStr "orders") out.2 ∧
  handed_to_engine (VStr "payload") out.2 ∧
  ¬ handed_to_engine (VStr "key-1") out.2.
Proof.
  cbn. split_and!.
  - reflexivity.
  - eexists. split; [reflexivity|]. apply list_elem_of_here.
  - eexists. split; [reflexivity|]. apply list_elem_of_further, list_elem_of_here.
  - intros (c & Hc & Hin). cbn in Hc. injection Hc as <-. cbn in Hin.
    repeat (apply elem_of_cons in Hin as [Hin|Hin]; [discriminate|]).
    by apply elem_of_nil in Hin.
Qed.

(** C9, amended.  [produce] takes [topic] and [payload]; whatever else it is
    called with, a key included, is ignored: the native [produce] receives
    [topic], [payload] and the callback, and the call does what the call
    without the extra arguments does. *)
Theorem produce_takes_topic_and_payload
    (this : object) (topic payload : value) (rest : list value)
    (r : reaction) (s : state) :
  Producer.produce this (topic :: payload :: rest) r s =
    Producer.produce this [topic; payload] r s ∧
  engine_log (Producer.produce this (topic :: payload :: rest) r s).2 =
    engine_log s ++
      [ECall (RHandle (impl this)) "produce"
             [AVal topic; AVal payload; ACallback (length (promises s))]].
Proof. by rewrite !produce_eq. Qed.

(** ** What the synchronous methods return *)

(** C10. [commit(commitValues)] and the consumer's [close()] return
    [undefined] whatever the native call returns, and fail only by throwing
    what the native call throws; the producer's [close()] returns what the
    native [close] returns. *)
Theorem commit_and_close_discard_the_result
    (this : object) (args : list value) (r : reaction) (s : state) :
  (KafkaConsumer.commit this args r s).1 =
    match finish r with
    | Returns _ => Normal (RVal VUndefined)
    | Throws e => Throw e
    end ∧
  (KafkaConsumer.close this args r s).1 =
    match finish r with
    | Returns _ => Normal (RVal VUndefined)
    | Throws e => Throw e
    end ∧
  (Producer.close this args r s).1 =
    match finish r with
    | Returns v => Normal (RVal v)
    | Throws e => Throw e
    end.
Proof.
  unfold KafkaConsumer.commit, KafkaConsumer.close, Producer.close,
    mbind, M_bind, bind.
  rewrite !native_eq. by destruct (finish r).
Qed.

(** ** The error code table *)

Lemma find_entry_unique (table : list ErrorTaxonomy.entry) e :
  NoDup (ErrorTaxonomy.code <$> table) → e ∈ table →
  ErrorTaxonomy.find_entry table (ErrorTaxonomy.code e) = Some e.
Proof.
  induction table as [|e' table IH]; intros Hnodup Hin.
  { by apply elem_of_nil in Hin. }
  rewrite fmap_cons in Hnodup. apply NoDup_cons in Hnodup as [Hfresh Hnodup].
  unfold ErrorTaxonomy.find_entry. cbn [find].
  apply elem_of_cons in Hin as [->|Hin].
  - by rewrite Z.eqb_refl.
  - destruct (Z.eqb_spec (ErrorTaxonomy.code e') (ErrorTaxonomy.code e))
      as [Heq|Hne].
    + exfalso. apply Hfresh. rewrite Heq. by apply list_elem_of_fmap_2.
    + by apply IH.
Qed.

Lemma find_entry_missing (table : list ErrorTaxonomy.entry) c :
  c ∉ ErrorTaxonomy.code <$> table → ErrorTaxonomy.find_entry table c = None.
Proof.
  induction table as [|e table IH]; intros Hnot; [done|].
  unfold ErrorTaxonomy.find_entry. cbn [find].
  rewrite fmap_cons in Hnot. apply not_elem_of_cons in Hnot as [Hne Hnot].
  destruct (Z.eqb_spec (ErrorTaxonomy.code e) c) as [Heq|_]; [done|].
  by apply IH.
Qed.

Lemma find_entry_some (table : list ErrorTaxonomy.entry) c e :
  ErrorTaxonomy.find_entry table c = Some e →
  e ∈ table ∧ ErrorTaxonomy.code e = c.
Proof.
  unfold ErrorTaxonomy.find_entry. intros Hfind.
  apply find_some in Hfind as [Hin Hcode].
  split; [by apply list_elem_of_In|by apply Z.eqb_eq].
Qed.

(** C8. Over a table with unique codes whose entry for code 0 is the success
    entry, [lookup(0)] is the name and message of that entry; a code the
    table does not have gets the fallback; every code gets either the entry
    of the table that has it or the fallback; and a lookup leaves the state
    as it is and gives the same pair in every state. *)
Theorem error_taxonomy_lookup
    (table : list ErrorTaxonomy.entry) (fallback : string * string)
    (success : ErrorTaxonomy.entry) :
  NoDup (ErrorTaxonomy.code <$> table) →
  success ∈ table →
  ErrorTaxonomy.code success = 0%Z →
  ErrorTaxonomy.lookup table fallback 0 =
    (ErrorTaxonomy.name success, ErrorTaxonomy.message success) ∧
  (∀ c, c ∉ ErrorTaxonomy.code <$> table →
        ErrorTaxonomy.lookup table fallback c = fallback) ∧
  (∀ c, (∃ e, e ∈ table ∧ ErrorTaxonomy.code e = c ∧
              ErrorTaxonomy.lookup table fallback c =
                (ErrorTaxonomy.name e, ErrorTaxonomy.message e)) ∨
        ErrorTaxonomy.lookup table fallback c = fallback) ∧
  (∀ c s s',
     ErrorTaxonomy.lookup_call table fallback c s =
       (Normal (ErrorTaxonomy.lookup table fallback c), s) ∧
     (ErrorTaxonomy.lookup_call table fallback c s).1 =
       (ErrorTaxonomy.lookup_call table fallback c s').1).
Proof.
  intros Hnodup Hin Hzero. split_and!.
  - unfold ErrorTaxonomy.lookup. rewrite <- Hzero.
    by rewrite find_entry_unique.
  - intros c Hc. unfold ErrorTaxonomy.lookup. by rewrite find_entry_missing.
  - intros c. unfold ErrorTaxonomy.lookup.
    destruct (ErrorTaxonomy.find_entry table c) as [e|] eqn:Hfind; [|by right].
    left. exists e. apply find_entry_some in Hfind as [He Hc]. done.
  - done.
Qed.

Lemma error_taxonomy_lookup_witness :
  let table := [ErrorTaxonomy.Entry (-184) "ERR__QUEUE_FULL" "Local: Queue full";
                ErrorTaxonomy.Entry 0 "ERR_NO_ERROR" "Success";
                ErrorTaxonomy.Entry 10 "ERR_MSG_SIZE_TOO_LARGE"
                  "Broker: Message size too large"] in
  let fallback := ("ERR_UNKNOWN", "Unknown error") in
  ErrorTaxonomy.lookup table fallback 0 = ("ERR_NO_ERROR", "Success") ∧
  ErrorTaxonomy.lookup table fallback 12345 = fallback.
Proof.
  pose (table := [ErrorTaxonomy.Entry (-184) "ERR__QUEUE_FULL" "Local: Queue full";
                  ErrorTaxonomy.Entry 0 "ERR_NO_ERROR" "Success";
                  ErrorTaxonomy.Entry 10 "ERR_MSG_SIZE_TOO_LARGE"
                    "Broker: Message size too large"]).
  assert (NoDup (ErrorTaxonomy.code <$> table)) as Hnodup.
  { apply (bool_decide_unpack _). vm_compute. exact I. }
  assert (ErrorTaxonomy.Entry 0 "ERR_NO_ERROR" "Success" ∈ table) as Hin.
  { apply list_elem_of_further, list_elem_of_here. }
  split.
  - exact (proj1 (error_taxonomy_lookup table ("ERR_UNKNOWN", "Unknown error")
                    _ Hnodup Hin eq_refl)).
  - apply (proj1 (proj2 (error_taxonomy_lookup table
                           ("ERR_UNKNOWN", "Unknown error") _ Hnodup Hin eq_refl))).
    apply (bool_decide_unpack _). vm_compute. exact I.
Defined.

(** * Further properties of the wrapper *)

(** ** What the native module receives *)

Lemma dispatch_state m this args r s :
  (dispatch m this args r s).2 =
  State (if returns_promise m then heap_after_new_P r (promises s)
         else settle_all (sync_callbacks r) (promises s))
        (next_handle s)
        (engine_log s ++ [native_call m this args (length (promises s))]).
Proof.
  destruct m; cbn [dispatch returns_promise native_call];
    rewrite ?consume_eq, ?produce_eq; try done;
    unfold KafkaConsumer.subscribe, KafkaConsumer.commit, KafkaConsumer.close,
      Producer.close, mbind, M_bind, bind;
    rewrite native_eq; by destruct (finish r).
Qed.

Lemma step_state s ev :
  step s ev =
  match ev with
  | EvCall m this args r =>
      State (if returns_promise m then heap_after_new_P r (promises s)
             else settle_all (sync_callbacks r) (promises s))
            (next_handle s)
            (engine_log s ++ [native_call m this args (length (promises s))])
  | EvCompletion p error x =>
      State (settle p (verdict error x) (promises s)) (next_handle s)
            (engine_log s)
  end.
Proof.
  destruct ev as [m this args r|p error x]; cbn [step].
  - apply dispatch_state.
  - by rewrite callback_state.
Qed.

Lemma step_promises_length s ev :
  length (promises (step s ev)) =
  length (promises s) + (if is_promise_call ev then 1 else 0).
Proof.
  rewrite step_state. destruct ev as [m this args r|p error x]; cbn.
  - destruct (returns_promise m).
    + rewrite heap_after_new_P_length. lia.
    + rewrite settle_all_length. lia.
  - rewrite settle_length. lia.
Qed.

(** Every [consume()] and [produce()] call builds one promise; no other
    method builds one and no report from the native module removes or adds
    one: after a run there are as many more promises as the run has
    [consume()] and [produce()] calls. *)
Theorem one_promise_per_consume_or_produce (evs : list event) (s : state) :
  length (promises (run evs s)) = length (promises s) + promise_calls evs.
Proof.
  revert s. induction evs as [|ev evs IH]; intros s.
  { unfold promise_calls. cbn. lia. }
  rewrite run_cons, IH, step_promises_length.
  unfold promise_calls. cbn [List.filter].
  destruct (is_promise_call ev); cbn [length]; lia.
Qed.

Lemma requests_length n evs : length (requests n evs) = method_calls evs.
Proof.
  unfold method_calls. revert n.
  induction evs as [|[m this args r|p error x] evs IH]; intros n; cbn;
    [done|by rewrite IH|by rewrite IH].
Qed.

Lemma run_engine_log evs s :
  engine_log (run evs s) = engine_log s ++ requests (length (promises s)) evs.
Proof.
  revert s. induction evs as [|ev evs IH]; intros s.
  { cbn. by rewrite app_nil_r. }
  rewrite run_cons, IH, step_promises_length, step_state.
  destruct ev as [m this args r|p error x]; cbn.
  - rewrite <- app_assoc. cbn. do 3 f_equal.
    destruct (returns_promise m); f_equal; lia.
  - by rewrite Nat.add_0_r.
Qed.

(** Each method call makes exactly one call to the native module, and the
    reports of the native module make none: after a run the native module
    has received, after what it had received before, the calls of the run's
    method calls in the order of the run, whatever it answered to each. *)
Theorem native_module_receives_the_calls_in_order
    (evs : list event) (s : state) :
  engine_log (run evs s) = engine_log s ++ requests (length (promises s)) evs ∧
  length (engine_log (run evs s)) = length (engine_log s) + method_calls evs.
Proof.
  split; [apply run_engine_log|].
  by rewrite run_engine_log, length_app, requests_length.
Qed.

Lemma requests_receiver n evs c :
  c ∈ requests n evs →
  ∃ ev h, ev ∈ evs ∧ called_on ev = Some h ∧ ec_recv c = RHandle h.
Proof.
  revert n. induction evs as [|[m this args r|p error x] evs IH]; intros n Hc.
  - by apply elem_of_nil in Hc.
  - cbn [requests] in Hc. apply elem_of_cons in Hc as [->|Hc].
    + exists (EvCall m this args r), (impl this).
      split_and!; [apply list_elem_of_here|done|by destruct m].
    + destruct (IH _ Hc) as (ev & h & Hev & Hon & Hrecv).
      exists ev, h. split_and!; [by apply list_elem_of_further|done..].
  - cbn [requests] in Hc.
    destruct (IH _ Hc) as (ev & h & Hev & Hon & Hrecv).
    exists ev, h. split_and!; [by apply list_elem_of_further|done..].
Qed.

(** A method reaches the native object of the instance it is called on and
    no other: over a run without a method call on the instances that wrap
    handle [h], the native module receives no call on [h], and none on a
    class constructor. *)
Theorem calls_reach_only_their_own_instance
    (evs : list event) (s : state) (h : handle) (c : ecall) :
  Forall (fun ev => called_on ev ≠ Some h) evs →
  c ∈ engine_log (run evs s) →
  c ∈ engine_log s ∨ (∃ h', ec_recv c = RHandle h' ∧ h' ≠ h).
Proof.
  intros Hall Hc. rewrite run_engine_log in Hc.
  apply elem_of_app in Hc as [Hc|Hc]; [by left|right].
  apply requests_receiver in Hc as (ev & h' & Hev & Hon & Hrecv).
  exists h'. split; [done|]. intros ->.
  rewrite Forall_forall in Hall. by apply (Hall ev Hev).
Qed.

Lemma calls_reach_only_their_own_instance_witness :
  let evs := [EvCall ConsumerConsume (Object 0) [] (accepts VUndefined);
              EvCall ConsumerClose (Object 0) [] (accepts VUndefined)] in
  let c := ECall (RHandle 0) "close" [] in
  c ∈ engine_log init ∨ (∃ h', ec_recv c = RHandle h' ∧ h' ≠ 1).
Proof.
  apply (calls_reach_only_their_own_instance
           [EvCall ConsumerConsume (Object 0) [] (accepts VUndefined);
            EvCall ConsumerClose (Object 0) [] (accepts VUndefined)]
           init 1 (ECall (RHandle 0) "close" [])).
  - repeat constructor; discriminate.
  - apply list_elem_of_further, list_elem_of_here.
Defined.

(** A method throws only what its native call threw, and [consume()] and
    [produce()] never throw: no method refuses a call by itself, in whatever
    state, after [close()] included. *)
Theorem methods_throw_only_what_the_native_call_throws
    (m : api) (this : object) (args : list value) (r : reaction) (s : state)
    (e : value) :
  (dispatch m this args r s).1 = Throw e ↔
  returns_promise m = false ∧ finish r = Throws e.
Proof.
  destruct m; cbn [dispatch returns_promise];
    rewrite ?consume_eq, ?produce_eq;
    unfold KafkaConsumer.subscribe, KafkaConsumer.commit, KafkaConsumer.close,
      Producer.close, mbind, M_bind, bind;
    rewrite ?native_eq; cbn [fst];
    try (split; [discriminate|intros [? _]; discriminate]);
    destruct (finish r); cbn; split;
      try discriminate; try (intros [_ ?]; discriminate);
      try (intros [= ->]; done); try (by intros [_ [= ->]]).
Qed.

Lemma methods_throw_only_what_the_native_call_throws_witness :
  let s := (KafkaConsumer.close (Object 0) [] (accepts VUndefined) init).2 in
  (dispatch ConsumerCommit (Object 0) [VArr []]
     (Reaction [] (Throws (VNative 3))) s).1 = Throw (VNative 3).
Proof.
  apply (methods_throw_only_what_the_native_call_throws ConsumerCommit
           (Object 0) [VArr []] (Reaction [] (Throws (VNative 3)))
           (KafkaConsumer.close (Object 0) [] (accepts VUndefined) init).2
           (VNative 3)).
  split; reflexivity.
Defined.

(** The promise that [consume()] or [produce()] returns is a new one: it did
    not exist before the call, whatever calls and reports came before, and
    the callback the call hands to the native module is the one of that
    promise. *)
Theorem returned_promise_is_fresh
    (m : api) (this : object) (args : list value) (r : reaction)
    (evs : list event) (s : state) :
  returns_promise m = true →
  ∃ p, (dispatch m this args r (run evs s)).1 = Normal (RPromise p) ∧
       promises (run evs s) !! p = None ∧
       last (engine_log (dispatch m this args r (run evs s)).2) =
         Some (native_call m this args p) ∧
       is_Some (promises (dispatch m this args r (run evs s)).2 !! p) ∧
       (∀ q, is_Some (promises s !! q) → q ≠ p).
Proof.
  intros Hm. exists (length (promises (run evs s))). split_and!.
  - by apply dispatch_new_promise.
  - by apply lookup_ge_None.
  - rewrite dispatch_state. cbn. apply last_snoc.
  - apply lookup_lt_is_Some. rewrite dispatch_state, Hm. cbn.
    rewrite heap_after_new_P_length. lia.
  - intros q Hq%lookup_lt_is_Some.
    pose proof (run_length evs s). lia.
Qed.

Lemma returned_promise_is_fresh_witness :
  let s := (KafkaConsumer.consume (Object 0) [] (accepts VUndefined) init).2 in
  ∃ p, (Producer.produce (Object 1) [VStr "orders"; VStr "payload"]
          (accepts VUndefined) (run [EvCompletion 0 VNull (VNative 5)] s)).1 =
       Normal (RPromise p) ∧
       promises (run [EvCompletion 0 VNull (VNative 5)] s) !! p = None.
Proof.
  destruct (returned_promise_is_fresh ProducerProduce (Object 1)
              [VStr "orders"; VStr "payload"] (accepts VUndefined)
              [EvCompletion 0 VNull (VNative 5)]
              (KafkaConsumer.consume (Object 0) [] (accepts VUndefined) init).2
              eq_refl) as (p & Hret & Hfresh & _).
  exists p. split; [exact Hret|exact Hfresh].
Defined.

(** ** What can change a promise *)

(** No method, of either class and on whatever instance, settles a promise
    that exists, and no report for another promise does: over a run a promise
    is left as it was unless it was pending and its own callback was invoked,
    and then it is settled. *)
Theorem promise_changes_only_by_its_callback
    (evs : list event) (s : state) (q : pid) (st : pstate) :
  promises s !! q = Some st →
  (quiet q evs = true → promises (run evs s) !! q = Some st) ∧
  (promises (run evs s) !! q = Some st ∨
   (st = Pending ∧ quiet q evs = false ∧
    is_settled (promises (run evs s) !! q) = true)).
Proof.
  intros Hq.
  assert (q < length (promises s)) as Hlt by (by eapply lookup_lt_Some).
  split.
  - intros Hquiet. by rewrite run_quiet.
  - destruct (quiet q evs) eqn:Hquiet.
    + left. by rewrite run_quiet.
    + destruct st.
      * right. split_and!; [done..|]. by apply run_invoked.
      * left. by apply run_stable.
      * left. by apply run_stable.
Qed.

(** A producer has a message in flight; the consumer subscribes, commits and
    closes, and a message is reported to another promise. *)
Lemma promise_changes_only_by_its_callback_witness :
  let s0 := (KafkaConsumer.consume (Object 0) [] (accepts VUndefined) init).2 in
  let s := (Producer.produce (Object 1) [VStr "orders"; VStr "payload"]
              (accepts VUndefined) s0).2 in
  let evs := [EvCall ConsumerSubscribe (Object 0) [VArr [VStr "orders"]]
                (accepts VUndefined);
              EvCompletion 0 VNull (VNative 5);
              EvCall ConsumerCommit (Object 0) [VArr [VNative 6]]
                (accepts VUndefined);
              EvCall ConsumerClose (Object 0) [] (accepts VUndefined)] in
  promises (run evs s) !! 1 = Some Pending.
Proof.
  exact (proj1 (promise_changes_only_by_its_callback
    [EvCall ConsumerSubscribe (Object 0) [VArr [VStr "orders"]]
       (accepts VUndefined);
     EvCompletion 0 VNull (VNative 5);
     EvCall ConsumerCommit (Object 0) [VArr [VNative 6]] (accepts VUndefined);
     EvCall ConsumerClose (Object 0) [] (accepts VUndefined)]
    (Producer.produce (Object 1) [VStr "orders"; VStr "payload"]
       (accepts VUndefined)
       (KafkaConsumer.consume (Object 0) [] (accepts VUndefined) init).2).2
    1 Pending eq_refl) eq_refl).
Defined.

(** ** Exceptions of the native call *)

Lemma decided_by_quiet p cbs otherwise :
  Forall (fun cb => cb.1.1 ≠ p) cbs → decided_by p cbs otherwise = otherwise.
Proof.
  unfold decided_by. induction cbs as [|cb cbs IH]; intros Hall; [done|].
  apply Forall_cons in Hall as [Hcb Hall]. cbn [find].
  destruct (Nat.eqb_spec cb.1.1 p); [done|]. by apply IH.
Qed.

Lemma decided_by_first p pre error x rest otherwise :
  Forall (fun cb => cb.1.1 ≠ p) pre →
  decided_by p (pre ++ (p, error, x) :: rest) otherwise = verdict error x.
Proof.
  unfold decided_by. induction pre as [|cb pre IH]; intros Hall.
  - cbn. by rewrite Nat.eqb_refl.
  - apply Forall_cons in Hall as [Hcb Hall]. cbn [app find].
    destruct (Nat.eqb_spec cb.1.1 p); [done|]. by apply IH.
Qed.

(** [consume()] and [produce()] do not throw.  When the native call throws
    something other than [undefined] before the callback has been invoked,
    the returned promise is rejected with what it threw, and no later report
    changes that.  When it throws [undefined] before the callback has been
    invoked, nothing is rejected: the promise is pending and the first later
    report decides it, as after a call that returned.  When the native call
    throws after it has invoked the callback, the exception is lost: the
    promise keeps what the callback made of it. *)
Theorem native_exception_becomes_a_rejection
    (m : api) (this : object) (args : list value) (r : reaction) (e : value)
    (s : state) (evs : list event) :
  let p := length (promises s) in
  let out := dispatch m this args r s in
  returns_promise m = true →
  finish r = Throws e →
  out.1 = Normal (RPromise p) ∧
  (Forall (fun cb => cb.1.1 ≠ p) (sync_callbacks r) →
   is_undefined e = false →
   promises (run evs out.2) !! p = Some (Rejected e)) ∧
  (Forall (fun cb => cb.1.1 ≠ p) (sync_callbacks r) →
   is_undefined e = true →
   promises out.2 !! p = Some Pending ∧
   promises (run evs out.2) !! p = Some (decided_by p (reported evs) Pending)) ∧
  (∀ pre error x rest,
     sync_callbacks r = pre ++ (p, error, x) :: rest →
     Forall (fun cb => cb.1.1 ≠ p) pre →
     promises (run evs out.2) !! p =
       Some (if truthy error then Rejected error else Resolved x)).
Proof.
  intros p out Hm Hfin. subst out p.
  assert (promises (dispatch m this args r s).2 =
          heap_after_new_P r (promises s)) as Hheap
    by (by rewrite dispatch_promises, Hm).
  split_and!.
  - by apply dispatch_new_promise.
  - intros Hquiet Hdef.
    rewrite (new_promise_decided r (promises s)) by done.
    by rewrite decided_by_quiet, Hfin, Hdef.
  - intros Hquiet Hundef. split.
    + rewrite Hheap, heap_after_new_P_new, settle_all_slot_quiet by done.
      by rewrite Hfin, Hundef.
    + rewrite (new_promise_decided r (promises s)) by done.
      by rewrite decided_by_quiet, Hfin, Hundef.
  - intros pre error x rest Hsync Hpre.
    rewrite (new_promise_decided r (promises s)) by done.
    by rewrite Hsync, decided_by_first.
Qed.

(** The native [produce] throws an error at once; it throws [undefined] and
    reports offset 42 later; it reports offset 42 and then throws. *)
Lemma native_exception_becomes_a_rejection_witness :
  let thrown := Reaction [] (Throws (VNative 7)) in
  let nothing := Reaction [] (Throws VUndefined) in
  let late := Reaction [(0, VNull, VNum 42)] (Throws (VNative 7)) in
  let args := [VStr "orders"; VStr "payload"] in
  promises (run [EvCompletion 0 VNull (VNum 42)]
              (dispatch ProducerProduce (Object 0) args thrown init).2) !! 0 =
    Some (Rejected (VNative 7)) ∧
  promises (run [EvCompletion 0 VNull (VNum 42)]
              (dispatch ProducerProduce (Object 0) args nothing init).2) !! 0 =
    Some (Resolved (VNum 42)) ∧
  promises (run [] (dispatch ProducerProduce (Object 0) args late init).2) !! 0 =
    Some (Resolved (VNum 42)).
Proof.
  split_and!.
  - exact (proj1 (proj2 (native_exception_becomes_a_rejection ProducerProduce
      (Object 0) [VStr "orders"; VStr "payload"]
      (Reaction [] (Throws (VNative 7))) (VNative 7) init
      [EvCompletion 0 VNull (VNum 42)] eq_refl eq_refl))
      (Forall_nil_2 _) eq_refl).
  - exact (proj2 (proj1 (proj2 (proj2
      (native_exception_becomes_a_rejection ProducerProduce
         (Object 0) [VStr "orders"; VStr "payload"]
         (Reaction [] (Throws VUndefined)) VUndefined init
         [EvCompletion 0 VNull (VNum 42)] eq_refl eq_refl)))
      (Forall_nil_2 _) eq_refl)).
  - exact (proj2 (proj2 (proj2
      (native_exception_becomes_a_rejection ProducerProduce
         (Object 0) [VStr "orders"; VStr "payload"]
         (Reaction [(0, VNull, VNum 42)] (Throws (VNative 7))) (VNative 7) init
         [] eq_refl eq_refl))) [] VNull (VNum 42) [] eq_refl (Forall_nil_2 _)).
Defined.

(** ** The order of the reports *)

Lemma settle_comm p q o o' (ps : list pstate) :
  p ≠ q → settle p o (settle q o' ps) = settle q o' (settle p o ps).
Proof.
  intros Hne. apply list_eq. intros i.
  rewrite !settle_lookup. unfold settle_slot.
  repeat case_decide; subst; try done.
Qed.

Lemma run_completions cbs s :
  run (completions cbs) s = set_promises (settle_all cbs) s.
Proof.
  revert s. induction cbs as [|cb cbs IH]; intros s; [by destruct s|].
  unfold completions. rewrite fmap_cons, run_cons.
  fold (completions cbs). rewrite IH. cbn [step].
  rewrite callback_state. by destruct s.
Qed.

Lemma settle_all_perm cbs cbs' (ps : list pstate) :
  NoDup ((fun cb => cb.1.1) <$> cbs) → cbs ≡ₚ cbs' →
  settle_all cbs ps = settle_all cbs' ps.
Proof.
  intros Hnodup Hperm. revert ps Hnodup.
  induction Hperm as [|cb cbs cbs' Hperm IH|cb1 cb2 cbs|cbs1 cbs2 cbs3 H12 IH12 H23 IH23];
    intros ps Hnodup.
  - done.
  - rewrite fmap_cons in Hnodup. apply NoDup_cons in Hnodup as [_ Hnodup].
    cbn. by apply IH.
  - rewrite !fmap_cons in Hnodup.
    apply NoDup_cons in Hnodup as [Hfresh _].
    apply not_elem_of_cons in Hfresh as [Hne _].
    cbn. f_equal. by apply settle_comm.
  - rewrite IH12 by done. apply IH23. by rewrite <- H12.
Qed.

(** Reports for different promises may arrive in any order: the state after
    them is the same. *)
Theorem reports_arrive_in_any_order
    (cbs cbs' : list (pid * value * value)) (s : state) :
  NoDup ((fun cb => cb.1.1) <$> cbs) →
  cbs ≡ₚ cbs' →
  run (completions cbs) s = run (completions cbs') s.
Proof.
  intros Hnodup Hperm. rewrite !run_completions.
  unfold set_promises. f_equal. by apply settle_all_perm.
Qed.

(** Two messages produced, confirmed in the order of the calls and in the
    other order. *)
Lemma reports_arrive_in_any_order_witness :
  let s1 := (Producer.produce (Object 0) [VStr "orders"; VStr "a"]
               (accepts VUndefined) init).2 in
  let s2 := (Producer.produce (Object 0) [VStr "orders"; VStr "b"]
               (accepts VUndefined) s1).2 in
  run (completions [(0, VNull, VNum 42); (1, VNative 7, VUndefined)]) s2 =
  run (completions [(1, VNative 7, VUndefined); (0, VNull, VNum 42)]) s2.
Proof.
  apply reports_arrive_in_any_order.
  - apply (bool_decide_unpack _). vm_compute. exact I.
  - apply perm_swap.
Defined.

(** ** Instances *)




